(** * DPRCalculator: expected damage of a D&D 5e weapon attack

    A shallow embedding of [src/packages/data/DPRCalculator.ts] and the
    properties its specification states about it.

    Modelling choices, fixed once for the whole development:

    - A JavaScript [number] is a value of [number]: a finite value, held
      as an exact rational in canonical form ([Qc]), or one of the three
      special values [NaN], [+Infinity], [-Infinity].  Arithmetic on the
      special values follows ECMAScript; arithmetic on finite values is
      exact, so binary64 rounding, overflow and the sign of zero are
      abstracted away.
    - The numeric fields that the data model declares as integers
      (bonuses, armor class, thresholds, side counts) are [Z].
    - [undefined] is [None]; it appears where the code reads a property
      that the object does not have.
    - A call completes normally with a value or throws ([completion]). *)

From Stdlib Require Import String ZArith QArith Qcanon List Bool Lia Lqa.
Local Open Scope Z_scope.
From Equations Require Import Equations.
Import ListNotations.

(** ** JavaScript numbers *)

Module JSNumber.

Inductive number : Type :=
| Fin (q : Qc)
| PInf
| NInf
| NaN.

(** An integer literal or integer-valued field, as a rational. *)
Definition zq (z : Z) : Qc := Q2Qc (inject_Z z).

Definition int (z : Z) : number := Fin (zq z).

(** A decimal literal [a/b]. *)
Definition dec (a : Z) (b : positive) : number := Fin (Q2Qc (a # b)).

(** [ToNumber]: [undefined] converts to [NaN]. *)
Definition to_number (v : option Z) : number :=
  match v with
  | Some z => int z
  | None => NaN
  end.

(** The infinity with the sign of a comparison against zero; a zero
    factor gives [NaN]. *)
Definition inf_of_sign (c : comparison) : number :=
  match c with
  | Gt => PInf
  | Lt => NInf
  | Eq => NaN
  end.

Definition nneg (x : number) : number :=
  match x with
  | Fin a => Fin (- a)%Qc
  | PInf => NInf
  | NInf => PInf
  | NaN => NaN
  end.

Definition nadd (x y : number) : number :=
  match x, y with
  | NaN, _ | _, NaN => NaN
  | Fin a, Fin b => Fin (a + b)%Qc
  | PInf, NInf | NInf, PInf => NaN
  | PInf, _ | _, PInf => PInf
  | NInf, _ | _, NInf => NInf
  end.

Definition nsub (x y : number) : number := nadd x (nneg y).

Definition nmul (x y : number) : number :=
  match x, y with
  | NaN, _ | _, NaN => NaN
  | Fin a, Fin b => Fin (a * b)%Qc
  | Fin a, PInf | PInf, Fin a => inf_of_sign (a ?= 0)%Qc
  | Fin a, NInf | NInf, Fin a => inf_of_sign (0 ?= a)%Qc
  | PInf, PInf | NInf, NInf => PInf
  | PInf, NInf | NInf, PInf => NInf
  end.

Definition ndiv (x y : number) : number :=
  match x, y with
  | NaN, _ | _, NaN => NaN
  | Fin a, Fin b =>
      if Qc_eq_dec b 0 then inf_of_sign (a ?= 0)%Qc else Fin (a / b)%Qc
  | Fin _, PInf | Fin _, NInf => Fin 0%Qc
  | PInf, Fin b => match (b ?= 0)%Qc with Lt => NInf | _ => PInf end
  | NInf, Fin b => match (b ?= 0)%Qc with Lt => PInf | _ => NInf end
  | _, _ => NaN
  end.

(** [x ** e] and [Math.pow(x, e)] for an integer exponent [e]. *)
Definition npow (x : number) (e : Z) : number :=
  if e =? 0 then int 1
  else
    match x with
    | NaN => NaN
    | Fin b =>
        if 0 <? e then Fin (b ^ Z.to_nat e)%Qc
        else if Qc_eq_dec b 0 then PInf
             else Fin (/ (b ^ Z.to_nat (- e)))%Qc
    | PInf => if 0 <? e then PInf else Fin 0%Qc
    | NInf =>
        if 0 <? e then (if Z.odd e then NInf else PInf) else Fin 0%Qc
    end.

Declare Scope number_scope.
Delimit Scope number_scope with num.
Bind Scope number_scope with number.
Infix "+" := nadd : number_scope.
Infix "-" := nsub : number_scope.
Infix "*" := nmul : number_scope.
Infix "/" := ndiv : number_scope.
Notation "x ** e" := (npow x e) (at level 30, right associativity)
  : number_scope.

End JSNumber.
Import JSNumber.

(** ** Completions: a call returns or throws *)

Inductive js_error : Type :=
| TypeError
| RangeError.

Inductive completion (A : Type) : Type :=
| Normal (a : A)
| Throw (e : js_error).
Arguments Normal {A} a.
Arguments Throw {A} e.

Definition bind {A B : Type} (c : completion A) (k : A -> completion B)
  : completion B :=
  match c with
  | Normal a => k a
  | Throw e => Throw e
  end.

Notation "x <- c ;; k" := (bind c (fun x => k))
  (at level 61, c at next level, right associativity).

(** [for]-loop over the elements of a list, collecting one result per
    iteration with [push]; the first throw leaves the loop. *)
Fixpoint for_each {A B : Type} (body : A -> completion B) (l : list A)
  : completion (list B) :=
  match l with
  | [] => Normal []
  | x :: rest =>
      y <- body x ;;
      ys <- for_each body rest ;;
      Normal (y :: ys)
  end.

(** ** Helper functions *)

(** [function T(N) { return (N ** 2 + N) / 2; }] *)
Definition T (N : number) : number := ((N ** 2 + N) / int 2)%num.

(** [function p_hit(A, B, M = 1)].  Every call in the repository passes
    [M]; the default applies to an omitted argument only. *)
Definition p_hit (A B M : Z) : number :=
  if A >=? B + 20 then (int 1 - (int 1 - dec 5 100) ** M)%num
  else if A <=? B + 2 then (int 1 - (int 1 - dec 5 100) ** M)%num
  else (int 1 - (int 1 - int (21 + B - A) / int 20) ** M)%num.

(** [function p_crit(crit_range, adv_mod)] *)
Definition p_crit (crit_range adv_mod : Z) : number :=
  (int 1 - (int 1 - int (21 - crit_range) / int 20) ** adv_mod)%num.

(** ** class Die *)

Record Die : Type := mkDie {
  sides : option Z;   (* [undefined] when the constructor got no side count *)
  reroll : Z;
  minRoll : Z
}.

(** [constructor(sides, reroll = 0, minRoll = 1)]: three assignments.  A
    default replaces an [undefined] argument; nothing is checked. *)
Definition new_Die (sides reroll minRoll : option Z) : completion Die :=
  Normal {| sides := sides;
            reroll := match reroll with Some r => r | None => 0 end;
            minRoll := match minRoll with Some m => m | None => 1 end |}.

Definition getSides (d : Die) : option Z := sides d.

(** Pairs a value with the equation that names it, so that a recursive
    call on the result of a constructor call can be justified. *)
Definition inspect {A : Type} (a : A) : {b : A | a = b} :=
  exist _ a eq_refl.

(** Number of nested [getAverageRoll] calls a die can cause. *)
Definition nesting (d : Die) : nat :=
  if reroll d =? 0 then 0%nat else 1%nat.

(** The three [return] expressions of [getAverageRoll], in source order;
    [a] is the value of [new Die(sides, 0, minRoll).getAverageRoll()]. *)
Definition average_plain (d : Die) : number :=
  ((T (to_number (sides d)) + T (int (minRoll d - 1)))
   / to_number (sides d))%num.

Definition average_reroll_above (d : Die) (a : number) : number :=
  ((T (to_number (sides d))
    + T (int (minRoll d - 1))
    - int (reroll d) * int (minRoll d)
    - T (int (minRoll d))
    + int (reroll d) * a)
   / to_number (sides d))%num.

Definition average_reroll_upto (d : Die) (a : number) : number :=
  ((T (to_number (sides d))
    + T (int (minRoll d - 1))
    - int (reroll d) * int (minRoll d)
    + int (reroll d) * a)
   / to_number (sides d))%num.

(** [Die.getAverageRoll()].  The statement [else this.reroll <= this.minRoll;]
    of the source is an expression statement without effect; the [return]
    after it is the remaining case. *)
Equations? getAverageRoll (d : Die) : completion number
  by wf (nesting d) lt :=
getAverageRoll d with inspect (reroll d =? 0) := {
  | exist _ true _ => Normal (average_plain d);
  | exist _ false Hr with (reroll d >? minRoll d) := {
    | true with inspect (new_Die (sides d) (Some 0) (Some (minRoll d))) := {
      | exist _ (Throw e) _ => Throw e;
      | exist _ (Normal d0) Hd0 =>
          a <- getAverageRoll d0 ;;
          Normal (average_reroll_above d a) };
    | false with inspect (new_Die (sides d) (Some 0) (Some (minRoll d))) := {
      | exist _ (Throw e) _ => Throw e;
      | exist _ (Normal d0) Hd0 =>
          a <- getAverageRoll d0 ;;
          Normal (average_reroll_upto d a) } } }.
Proof.
  all: unfold nesting; cbn [reroll]; rewrite Hr; cbn; lia.
Qed.

(** The same method with a budget of [depth] activations of
    [getAverageRoll] on the call stack; [None] when the budget does not
    suffice. *)
Fixpoint getAverageRoll_within (depth : nat) (d : Die)
  : option (completion number) :=
  match depth with
  | O => None
  | S depth' =>
      if reroll d =? 0 then Some (Normal (average_plain d))
      else
        let finish :=
          if reroll d >? minRoll d
          then average_reroll_above d else average_reroll_upto d in
        match new_Die (sides d) (Some 0) (Some (minRoll d)) with
        | Throw e => Some (Throw e)
        | Normal d0 =>
            match getAverageRoll_within depth' d0 with
            | None => None
            | Some c => Some (a <- c ;; Normal (finish a))
            end
        end
  end.

(** ** class DiceSet *)

Record DiceSet : Type := mkDiceSet {
  dice : list Die
}.

(** One per-die specification object [{ sides, reroll, minRoll, id }]. *)
Record DieSpec : Type := mkDieSpec {
  spec_sides : Z;
  spec_reroll : Z;
  spec_minRoll : Z;
  spec_id : Z
}.

(** What an array handed to the [DiceSet] constructor holds: the
    declared specification objects, or the plain side counts that
    [calculateDefaultCritDice] collects ([getSides()] of a die, which is
    [undefined] when the die has no side count). *)
Inductive element : Type :=
| ElemSpec (s : DieSpec)
| ElemNumber (n : Z)
| ElemUndefined.

(** What the [DiceSet] constructor is applied to in this repository: an
    array, or (from the methods of [Attack]) a [DiceSet] instance. *)
Inductive dice_value : Type :=
| ArrayValue (elems : list element)
| DiceSetValue (ds : DiceSet).

(** The property reads [dice[i].sides], [dice[i].reroll] and
    [dice[i].minRoll]: a number has none of the three properties, and
    reading a property of [undefined] throws. *)
Definition get_property (field : DieSpec -> Z) (e : element)
  : completion (option Z) :=
  match e with
  | ElemSpec s => Normal (Some (field s))
  | ElemNumber _ => Normal None
  | ElemUndefined => Throw TypeError
  end.

(** [constructor(dice)]: [for (let i = 0; i < dice.length; i++)
    this.dice.push(new Die(dice[i].sides, dice[i].reroll, dice[i].minRoll))].
    For a [DiceSet] instance, [dice.length] is the method [length]; it
    converts to [NaN], [0 < NaN] is false, and the body never runs. *)
Definition new_DiceSet (dice : dice_value) : completion DiceSet :=
  match dice with
  | ArrayValue elems =>
      ds <- for_each
              (fun e =>
                 s <- get_property spec_sides e ;;
                 r <- get_property spec_reroll e ;;
                 m <- get_property spec_minRoll e ;;
                 new_Die s r m)
              elems ;;
      Normal {| dice := ds |}
  | DiceSetValue _ => Normal {| dice := [] |}
  end.

(** The loop of [getAverageRolls]: [total += this.dice[i].getAverageRoll()]. *)
Fixpoint add_rolls (total : number) (l : list Die) : completion number :=
  match l with
  | [] => Normal total
  | d :: rest =>
      a <- getAverageRoll d ;;
      add_rolls (total + a)%num rest
  end.

Definition getAverageRolls (ds : DiceSet) : completion number :=
  add_rolls (int 0) (dice ds).

(** [this.dice[N]]: [undefined] when [N] is not an index of the array
    ([None] stands for a [NaN] index). *)
Definition getDie (ds : DiceSet) (N : option Z) : option Die :=
  match N with
  | Some n => if n <? 0 then None else nth_error (dice ds) (Z.to_nat n)
  | None => None
  end.

Definition addDie (ds : DiceSet) (die : Die) : DiceSet :=
  {| dice := dice ds ++ [die] |}.

Definition DiceSet_length (ds : DiceSet) : Z := Z.of_nat (length (dice ds)).

(** The remainder operator [i % n] on integers; [NaN] for [n = 0]. *)
Definition js_rem (i n : Z) : option Z :=
  if n =? 0 then None else Some (Z.rem i n).

(** [function calculateDefaultCritDice(diceset)] *)
Definition calculateDefaultCritDice (diceset : DiceSet) : completion DiceSet :=
  dice <- for_each
            (fun i =>
               match getDie diceset (js_rem (Z.of_nat i) (DiceSet_length diceset)) with
               | Some die => Normal (getSides die)
               | None => Throw TypeError
               end)
            (seq 0 (Z.to_nat (DiceSet_length diceset * 2))) ;;
  new_DiceSet
    (ArrayValue
       (map (fun s => match s with
                      | Some n => ElemNumber n
                      | None => ElemUndefined
                      end) dice)).

(** ** class Attack *)

Record Attack : Type := mkAttack {
  name : string;
  attack_bonus : Z;
  damage_bonus : Z;
  damage_dice : dice_value;
  crit_dice : dice_value;
  advantage_modifier : Z;
  gwmsharp : bool;
  crit_range : Z;
  target_AC : Z
}.

Definition getEffectiveAttackBonus (a : Attack) : Z :=
  if gwmsharp a then attack_bonus a - 5 else attack_bonus a.

Definition getEffectiveDamageBonus (a : Attack) : Z :=
  if gwmsharp a then damage_bonus a + 10 else damage_bonus a.

Definition getAverageFromDice (a : Attack) : completion number :=
  ds <- new_DiceSet (damage_dice a) ;;
  rolls <- getAverageRolls ds ;;
  Normal (p_hit (target_AC a) (getEffectiveAttackBonus a)
                (advantage_modifier a) * rolls)%num.

Definition getAverageFromBonus (a : Attack) : completion number :=
  Normal (p_hit (target_AC a) (getEffectiveAttackBonus a)
                (advantage_modifier a)
          * int (getEffectiveDamageBonus a))%num.

Definition getAverageFromCritFactor (a : Attack) : completion number :=
  cs <- new_DiceSet (crit_dice a) ;;
  crit_rolls <- getAverageRolls cs ;;
  ds <- new_DiceSet (damage_dice a) ;;
  rolls <- getAverageRolls ds ;;
  Normal (p_crit (crit_range a) (advantage_modifier a)
          * (crit_rolls - rolls))%num.

Definition getAverageTotal (a : Attack) : completion number :=
  x <- getAverageFromDice a ;;
  y <- getAverageFromBonus a ;;
  z <- getAverageFromCritFactor a ;;
  Normal (x + y + z)%num.

(** ** The worked example

    The attack of the end-to-end scenario: 2d6 damage dice, 4d6+6d8
    critical dice, every die plain.  The commented-out script at the end
    of [DPRCalculator.ts] builds its attack the same way (with eight d8),
    handing [new DiceSet([...])] instances to [new Attack]. *)

Definition plain (sides id : Z) : element :=
  ElemSpec {| spec_sides := sides; spec_reroll := 0; spec_minRoll := 1;
              spec_id := id |}.

Definition damage_specs : list element :=
  [plain 6 1; plain 6 2].

Definition crit_specs : list element :=
  [plain 6 3; plain 6 4; plain 6 5; plain 6 6;
   plain 8 7; plain 8 8; plain 8 9; plain 8 10; plain 8 11; plain 8 12].

Definition d6 : Die := mkDie (Some 6) 0 1.
Definition d8 : Die := mkDie (Some 8) 0 1.

Definition damage_set : DiceSet := {| dice := [d6; d6] |}.

Definition crit_set : DiceSet :=
  {| dice := [d6; d6; d6; d6; d8; d8; d8; d8; d8; d8] |}.

Definition holy_attack (damage crit : dice_value) : Attack :=
  {| name := "Holy Attack"%string;
     attack_bonus := 9;
     damage_bonus := 5;
     damage_dice := damage;
     crit_dice := crit;
     advantage_modifier := 2;
     gwmsharp := true;
     crit_range := 20;
     target_AC := 15 |}.

Definition my_attack : Attack :=
  holy_attack (DiceSetValue damage_set) (DiceSetValue crit_set).

(** The same attack handed the two arrays themselves. *)
Definition my_attack_arrays : Attack :=
  holy_attack (ArrayValue damage_specs) (ArrayValue crit_specs).

(** ** Closed forms *)

(** The triangular number [N(N+1)/2] of the specification. *)
Definition triangular (n : Z) : Qc := (zq n * (zq n + 1) / zq 2)%Qc.

(** The specification's wording of the average for
    [rerollThreshold > minRoll], which subtracts [triangular(R)]; [a] is
    the average of the die without reroll rule. *)
Definition spec_average_above (S R M : Z) (a : Qc) : Qc :=
  ((triangular S + triangular (M - 1) - zq R * zq M - triangular R
    + zq R * a) / zq S)%Qc.

(** The same closed form with [triangular(M)] subtracted, as in the
    second [return] of [getAverageRoll]. *)
Definition code_average_above (S R M : Z) (a : Qc) : Qc :=
  ((triangular S + triangular (M - 1) - zq R * zq M - triangular M
    + zq R * a) / zq S)%Qc.

(** The single-roll probability [p_hit] raises to the power of the
    advantage modifier: [0.05] in both capped cases, linear between. *)
Definition single_roll (A B : Z) : Qc :=
  if (A >=? B + 20) || (A <=? B + 2) then Q2Qc (5 # 100)
  else (zq (21 + B - A) / zq 20)%Qc.

(** ** Averages by enumeration of the faces

    The faces of a die with [n] sides are [1 .. n].  The sums below
    enumerate them; the closed forms of [getAverageRoll] are compared
    with these sums. *)






(** The die the [DiceSet] constructor builds from one specification
    object. *)
Definition die_of_spec (s : DieSpec) : Die :=
  mkDie (Some (spec_sides s)) (spec_reroll s) (spec_minRoll s).




(** * Properties *)

(** ** Evaluating closed terms *)

Lemma Fin_eq (a b : Qc) : (a == b)%Q -> Fin a = Fin b.
Proof. intros H. f_equal. apply Qc_is_canon. exact H. Qed.

Lemma Normal_Fin_eq (a b : Qc) : (a == b)%Q -> Normal (Fin a) = Normal (Fin b).
Proof. intros H. f_equal. apply Fin_eq. exact H. Qed.

(** Decides an equation between closed numbers or closed completions. *)
Ltac evaluate :=
  vm_compute;
  first [ reflexivity
        | apply Normal_Fin_eq; vm_compute; reflexivity
        | apply Fin_eq; vm_compute; reflexivity ].

(** ** Arithmetic of finite numbers *)

Lemma zq_inj (a b : Z) : zq a = zq b -> a = b.
Proof.
  intros H. apply Q2Qc_eq_iff in H. unfold Qeq in H. cbn in H. lia.
Qed.

Lemma zq_nonzero (z : Z) : z <> 0 -> zq z <> 0%Qc.
Proof. intros Hz H. apply Hz. apply zq_inj. exact H. Qed.

Lemma ndiv_finite (a b : Qc) : b <> 0%Qc -> (Fin a / Fin b)%num = Fin (a / b)%Qc.
Proof. intros Hb. unfold ndiv. destruct (Qc_eq_dec b 0); congruence. Qed.

Lemma npow_finite (b : Qc) (e : Z) :
  0 <= e -> (Fin b ** e)%num = Fin (b ^ Z.to_nat e)%Qc.
Proof.
  intros He. unfold npow. destruct (Z.eqb_spec e 0) as [-> | Hne].
  - reflexivity.
  - destruct (Z.ltb_spec 0 e); [reflexivity | lia].
Qed.

(** Order facts on [Qc] are settled on the underlying fractions. *)
Ltac on_fractions :=
  unfold Qcle, Qclt, Qcminus, Qcplus, Qcopp, Qcmult, Q2Qc, this in *;
  rewrite ?Qred_correct in *.

Lemma Qcpower_unit_interval (x : Qc) (n : nat) :
  (0 <= x)%Qc -> (x <= 1)%Qc -> (0 <= x ^ n)%Qc /\ (x ^ n <= 1)%Qc.
Proof.
  intros H0 H1. induction n as [| n [IH0 IH1]]; cbn [Qcpower].
  - split; on_fractions; lra.
  - revert IH0 IH1. generalize (x ^ n)%Qc. intros y IH0 IH1.
    destruct x as [x cx], y as [y cy]. on_fractions. cbn in *.
    split; nra.
Qed.

Lemma complement_unit_interval (x : Qc) :
  (0 <= x)%Qc -> (x <= 1)%Qc -> (0 <= 1 - x)%Qc /\ (1 - x <= 1)%Qc.
Proof.
  intros H0 H1. destruct x as [x cx]. on_fractions. cbn in *. split; lra.
Qed.

Lemma zq_0 : zq 0 = 0%Qc.
Proof. apply Qc_is_canon. reflexivity. Qed.

Lemma zq_1 : zq 1 = 1%Qc.
Proof. apply Qc_is_canon. reflexivity. Qed.

Lemma nsub_finite (a b : Qc) : (Fin a - Fin b)%num = Fin (a - b)%Qc.
Proof. reflexivity. Qed.

(** ** Hit probability *)

Lemma twentieth_bounds (k : Z) :
  1 <= k <= 19 ->
  (Q2Qc (1 # 20) <= zq k / zq 20)%Qc /\ (zq k / zq 20 <= Q2Qc (19 # 20))%Qc.
Proof.
  intros Hk.
  assert (H1 : (inject_Z 1 <= inject_Z k)%Q) by (rewrite <- Zle_Qle; lia).
  assert (H2 : (inject_Z k <= inject_Z 19)%Q) by (rewrite <- Zle_Qle; lia).
  unfold Qcdiv, Qcinv, zq. on_fractions.
  revert H1 H2. generalize (inject_Z k). intros q H1 H2.
  change (/ inject_Z 20)%Q with (1 # 20)%Q.
  change (inject_Z 1) with 1%Q in H1. change (inject_Z 19) with (19 # 1)%Q in H2.
  split; lra.
Qed.

Lemma single_roll_bounds (A B : Z) :
  (Q2Qc (1 # 20) <= single_roll A B)%Qc /\
  (single_roll A B <= Q2Qc (19 # 20))%Qc.
Proof.
  unfold single_roll.
  destruct (Z.geb_spec A (B + 20)); cbn [orb].
  - split; on_fractions; cbn; lra.
  - destruct (Z.leb_spec A (B + 2)).
    + split; on_fractions; cbn; lra.
    + apply twentieth_bounds. lia.
Qed.

(** The base [1 - p] that [p_hit] raises to the power. *)
Lemma p_hit_unfold (A B M : Z) :
  p_hit A B M = (int 1 - Fin (1 - single_roll A B)%Qc ** M)%num.
Proof.
  unfold p_hit, single_roll.
  destruct (A >=? B + 20); cbn [orb].
  - unfold int, dec. rewrite nsub_finite, zq_1. reflexivity.
  - destruct (A <=? B + 2).
    + unfold int, dec. rewrite nsub_finite, zq_1. reflexivity.
    + unfold int. rewrite ndiv_finite by (apply zq_nonzero; lia).
      rewrite nsub_finite, zq_1. reflexivity.
Qed.

Lemma miss_chance_nonzero (A B : Z) : (1 - single_roll A B)%Qc <> 0%Qc.
Proof.
  destruct (single_roll_bounds A B) as [_ H]. revert H.
  generalize (single_roll A B). intros s H E.
  assert (Hs : s = 1%Qc).
  { transitivity (1 - (1 - s))%Qc; [ring | rewrite E; ring]. }
  rewrite Hs in H. exact (H eq_refl).
Qed.

Lemma p_hit_rolls (A B M : Z) :
  0 <= M ->
  p_hit A B M = Fin (1 - (1 - single_roll A B) ^ Z.to_nat M)%Qc.
Proof.
  intros HM. rewrite p_hit_unfold, npow_finite by exact HM.
  unfold int. rewrite nsub_finite, zq_1. reflexivity.
Qed.

Lemma p_hit_finite (A B M : Z) : exists p, p_hit A B M = Fin p.
Proof.
  rewrite p_hit_unfold. unfold npow.
  destruct (M =? 0); [eexists; reflexivity |].
  destruct (0 <? M); [eexists; reflexivity |].
  destruct (Qc_eq_dec _ 0) as [E | _]; [| eexists; reflexivity].
  exfalso. exact (miss_chance_nonzero _ _ E).
Qed.

Lemma p_hit_unit_interval (A B M : Z) :
  0 <= M -> exists p, p_hit A B M = Fin p /\ (0 <= p)%Qc /\ (p <= 1)%Qc.
Proof.
  intros HM. eexists. split; [apply p_hit_rolls; exact HM |].
  destruct (single_roll_bounds A B) as [Hlo Hhi].
  assert (Hb : (0 <= 1 - single_roll A B)%Qc /\ (1 - single_roll A B <= 1)%Qc).
  { revert Hlo Hhi. generalize (single_roll A B). intros [x cx] Hlo Hhi.
    on_fractions. cbn in *. split; lra. }
  destruct Hb as [Hb0 Hb1].
  destruct (Qcpower_unit_interval _ (Z.to_nat M) Hb0 Hb1) as [Hp0 Hp1].
  apply complement_unit_interval; assumption.
Qed.

(** C5: for an advantage modifier in {1, 2, 3}, [p_hit] returns
    [1 - (1 - 0.05)^M] whenever [A - B >= 20] or [A - B <= 2], and
    [1 - (1 - (21 + B - A)/20)^M] otherwise; the result is a finite
    number in [0, 1]. *)
Theorem C5_p_hit_cases_and_range (A B M : Z) :
  1 <= M <= 3 ->
  (A - B >= 20 \/ A - B <= 2 ->
   p_hit A B M = Fin (1 - (1 - Q2Qc (5 # 100)) ^ Z.to_nat M)%Qc) /\
  (~ (A - B >= 20 \/ A - B <= 2) ->
   p_hit A B M = Fin (1 - (1 - zq (21 + B - A) / zq 20) ^ Z.to_nat M)%Qc) /\
  (exists p, p_hit A B M = Fin p /\ (0 <= p)%Qc /\ (p <= 1)%Qc).
Proof.
  intros HM. repeat split.
  - intros Hcap. rewrite p_hit_rolls by lia. unfold single_roll.
    destruct (Z.geb_spec A (B + 20)); cbn [orb]; [reflexivity |].
    destruct (Z.leb_spec A (B + 2)); [reflexivity | lia].
  - intros Hlin. rewrite p_hit_rolls by lia. unfold single_roll.
    destruct (Z.geb_spec A (B + 20)); cbn [orb]; [lia |].
    destruct (Z.leb_spec A (B + 2)); [lia | reflexivity].
  - apply p_hit_unit_interval. lia.
Qed.

Lemma C5_p_hit_cases_and_range_witness :
  1 <= 2 <= 3 /\
  p_hit 15 13 2 = Fin (1 - (1 - Q2Qc (5 # 100)) ^ Z.to_nat 2)%Qc /\
  p_hit 15 4 2 = Fin (1 - (1 - zq (21 + 4 - 15) / zq 20) ^ Z.to_nat 2)%Qc /\
  (exists p, p_hit 15 4 2 = Fin p /\ (0 <= p)%Qc /\ (p <= 1)%Qc).
Proof.
  split; [lia |].
  destruct (C5_p_hit_cases_and_range 15 13 2) as [Hcap _]; [lia |].
  destruct (C5_p_hit_cases_and_range 15 4 2) as [_ [Hlin Hrange]]; [lia |].
  split; [apply Hcap; lia |].
  split; [apply Hlin; lia | exact Hrange].
Defined.


Lemma twentieth_monotone (j k : Z) :
  j <= k -> (zq j / zq 20 <= zq k / zq 20)%Qc.
Proof.
  intros H.
  assert (Hq : (inject_Z j <= inject_Z k)%Q) by (rewrite <- Zle_Qle; exact H).
  unfold Qcdiv, Qcinv, zq. on_fractions.
  revert Hq. generalize (inject_Z j) (inject_Z k). intros x y Hq.
  change (/ inject_Z 20)%Q with (1 # 20)%Q. lra.
Qed.


(** C6 (evaluation of the code where the claim fails): for every attack
    bonus [B], one roll against armor class [B + 2] hits with probability
    [0.05] and against the higher armor class [B + 3] with probability
    [0.9]; [p_hit] rises there. *)
Theorem C6_p_hit_rises_above_the_cap (B : Z) :
  p_hit (B + 2) B 1 = dec 5 100 /\
  p_hit (B + 3) B 1 = dec 90 100 /\
  (Q2Qc (5 # 100) < Q2Qc (90 # 100))%Qc.
Proof.
  repeat split.
  - rewrite p_hit_rolls by lia. unfold single_roll.
    destruct (Z.geb_spec (B + 2) (B + 20)); [lia |].
    destruct (Z.leb_spec (B + 2) (B + 2)); [| lia].
    evaluate.
  - rewrite p_hit_rolls by lia. unfold single_roll.
    destruct (Z.geb_spec (B + 3) (B + 20)); [lia |].
    destruct (Z.leb_spec (B + 3) (B + 2)); [lia |].
    replace (21 + B - (B + 3)) with 18 by lia. evaluate.
Qed.

(** C7: two rolls hit with probability [1 - (1 - p)^2], where [p] is the
    probability [p_hit] returns for one roll at the same armor class and
    attack bonus. *)
Theorem C7_advantage_scaling (A B : Z) :
  exists p, p_hit A B 1 = Fin p /\ p_hit A B 2 = Fin (1 - (1 - p) ^ 2)%Qc.
Proof.
  exists (single_roll A B). split.
  - rewrite p_hit_rolls by lia. apply f_equal.
    change (Z.to_nat 1) with 1%nat. cbn [Qcpower]. ring.
  - rewrite p_hit_rolls by lia. reflexivity.
Qed.

(** ** Die.getAverageRoll *)

(** The method, as the source writes it. *)
Lemma getAverageRoll_source (d : Die) :
  getAverageRoll d =
  if reroll d =? 0 then Normal (average_plain d)
  else if reroll d >? minRoll d then
    d0 <- new_Die (sides d) (Some 0) (Some (minRoll d)) ;;
    a <- getAverageRoll d0 ;;
    Normal (average_reroll_above d a)
  else
    d0 <- new_Die (sides d) (Some 0) (Some (minRoll d)) ;;
    a <- getAverageRoll d0 ;;
    Normal (average_reroll_upto d a).
Proof.
  funelim (getAverageRoll d);
    repeat match goal with
           | E : (reroll _ =? 0) = _ |- _ => rewrite E
           | E : (reroll _ >? minRoll _) = _ |- _ => rewrite E
           | E : new_Die _ _ _ = _ |- _ => rewrite E
           end;
    reflexivity.
Qed.

Lemma getAverageRoll_plain (d : Die) :
  reroll d = 0 -> getAverageRoll d = Normal (average_plain d).
Proof.
  intros H. rewrite getAverageRoll_source, H. reflexivity.
Qed.

(** A die with positive side count and no reroll rule has a finite
    average. *)
Lemma average_plain_finite (S M : Z) :
  1 <= S ->
  average_plain (mkDie (Some S) 0 M)
  = Fin ((triangular S + triangular (M - 1)) / zq S)%Qc.
Proof.
  intros HS. unfold average_plain, T, to_number, int. cbn [sides minRoll].
  rewrite !npow_finite by lia.
  cbn [nadd]. rewrite !ndiv_finite by (apply zq_nonzero; lia).
  cbn [nadd]. rewrite ndiv_finite by (apply zq_nonzero; lia).
  apply f_equal. unfold triangular. change (Z.to_nat 2) with 2%nat.
  cbn [Qcpower]. field. split; apply zq_nonzero; lia.
Qed.

Lemma T_int (z : Z) : T (int z) = Fin (triangular z).
Proof.
  unfold T, int. rewrite npow_finite by lia. cbn [nadd].
  rewrite ndiv_finite by (apply zq_nonzero; lia).
  apply f_equal. unfold triangular. change (Z.to_nat 2) with 2%nat.
  cbn [Qcpower]. field. apply zq_nonzero. lia.
Qed.

Lemma average_reroll_above_finite (S R M : Z) (a : Qc) :
  1 <= S ->
  average_reroll_above (mkDie (Some S) R M) (Fin a)
  = Fin (code_average_above S R M a).
Proof.
  intros HS. unfold average_reroll_above, to_number. cbn [sides reroll minRoll].
  rewrite !T_int. unfold int. cbn [nmul nadd nsub nneg].
  rewrite ndiv_finite by (apply zq_nonzero; lia).
  reflexivity.
Qed.

(** C4 (the claim as stated fails): the average of a d6 that rerolls
    rolls up to 3, with minimum roll 1, is not the value of the formula
    that subtracts [triangular(R)]. *)
Lemma C4_counterexample :
  ~ (forall (S R M : Z) (a : Qc),
        1 <= S -> R > M ->
        getAverageRoll (mkDie (Some S) 0 M) = Normal (Fin a) ->
        getAverageRoll (mkDie (Some S) R M)
        = Normal (Fin (spec_average_above S R M a))).
Proof.
  intros H.
  specialize (H 6 3 1 (Q2Qc (7 # 2))).
  assert (E : getAverageRoll (mkDie (Some 6) 3 1) = Normal (dec 55 12))
    by evaluate.
  rewrite E in H.
  assert (F : Normal (dec 55 12) = Normal (Fin (spec_average_above 6 3 1 (Q2Qc (7 # 2))))).
  { apply H; [lia | lia | evaluate]. }
  apply (f_equal (fun c => match c with
                          | Normal (Fin q) => this q
                          | _ => 0%Q
                          end)) in F.
  vm_compute in F. discriminate F.
Qed.

(** C4 (amended): for a die with [S >= 1] sides, reroll threshold [R]
    and minimum roll [M] with [R > M] and [R <> 0], the average is
    [(triangular(S) + triangular(M-1) - R*M - triangular(M) + R*a) / S],
    where [a] is the average of the die with the same sides and minimum
    roll and no reroll: the code subtracts the triangular number of the
    minimum roll. *)
Theorem C4_average_above_minRoll (S R M : Z) :
  1 <= S -> R > M -> R <> 0 ->
  exists a : Qc,
    getAverageRoll (mkDie (Some S) 0 M) = Normal (Fin a) /\
    getAverageRoll (mkDie (Some S) R M)
    = Normal (Fin (code_average_above S R M a)).
Proof.
  intros HS HRM HR.
  exists ((triangular S + triangular (M - 1)) / zq S)%Qc.
  assert (Hplain : getAverageRoll (mkDie (Some S) 0 M)
                   = Normal (Fin ((triangular S + triangular (M - 1)) / zq S)%Qc)).
  { rewrite getAverageRoll_plain by reflexivity.
    rewrite average_plain_finite by exact HS. reflexivity. }
  split; [exact Hplain |].
  rewrite getAverageRoll_source. cbn [sides reroll minRoll].
  destruct (Z.eqb_spec R 0) as [E | _]; [contradiction |].
  destruct (Z.gtb_spec R M) as [_ | E]; [| lia].
  unfold new_Die. cbn [bind]. rewrite Hplain. cbn [bind].
  rewrite average_reroll_above_finite by exact HS. reflexivity.
Qed.

Lemma C4_average_above_minRoll_witness :
  exists a : Qc,
    getAverageRoll (mkDie (Some 6) 0 1) = Normal (Fin a) /\
    getAverageRoll (mkDie (Some 6) 3 1)
    = Normal (Fin (code_average_above 6 3 1 a)).
Proof. apply (C4_average_above_minRoll 6 3 1); lia. Defined.

(** C9: [getAverageRoll] returns a number for every die, whatever its
    reroll threshold and side count, and needs at most one nested call:
    [nesting d] is 0 or 1, a budget of [nesting d] activations is not
    enough, and any budget above it yields the value of the method.  The
    die handed to the nested call has no reroll rule. *)
Theorem C9_getAverageRoll_total (d : Die) :
  (exists v : number, getAverageRoll d = Normal v) /\
  (nesting d <= 1)%nat /\
  nesting (mkDie (sides d) 0 (minRoll d)) = 0%nat /\
  getAverageRoll_within (nesting d) d = None /\
  (forall extra : nat,
      getAverageRoll_within (S (nesting d) + extra) d
      = Some (getAverageRoll d)).
Proof.
  assert (Hplain : forall d0, reroll d0 = 0 ->
            getAverageRoll d0 = Normal (average_plain d0))
    by exact getAverageRoll_plain.
  rewrite getAverageRoll_source. unfold nesting. cbn [reroll].
  destruct (Z.eqb_spec (reroll d) 0) as [E | E].
  - split; [eexists; reflexivity |].
    split; [lia |]. split; [reflexivity |]. split; [reflexivity |].
    intros extra. cbn. rewrite (proj2 (Z.eqb_eq _ _) E). reflexivity.
  - unfold new_Die. cbn [bind]. rewrite Hplain by reflexivity. cbn [bind].
    split; [destruct (reroll d >? minRoll d); eexists; reflexivity |].
    split; [lia |]. split; [reflexivity |].
    split.
    + cbn. rewrite (proj2 (Z.eqb_neq _ _) E). reflexivity.
    + intros extra. cbn. rewrite (proj2 (Z.eqb_neq _ _) E).
      destruct (reroll d >? minRoll d); reflexivity.
Qed.

(** Degenerate dice still get a value: a die rerolling every face, a
    die without faces, and a die whose side count is [undefined]. *)
Example reroll_every_face :
  getAverageRoll (mkDie (Some 4) 6 1) = Normal (dec 9 2).
Proof. evaluate. Qed.

Example zero_sided_die :
  getAverageRoll (mkDie (Some 0) 0 1) = Normal NaN /\
  getAverageRoll (mkDie (Some 0) 0 2) = Normal PInf.
Proof. split; reflexivity. Qed.

Example die_without_side_count :
  getAverageRoll (mkDie None 0 1) = Normal NaN.
Proof. reflexivity. Qed.

(** C10 (the claim as stated fails): the constructor does not signal an
    error for a negative reroll threshold or minimum roll. *)
Lemma C10_counterexample :
  ~ (forall (s : option Z) (r m : Z),
        r < 0 \/ m < 0 ->
        exists e : js_error, new_Die s (Some r) (Some m) = Throw e).
Proof.
  intros H. destruct (H (Some 6) (-1) (-2)) as [e He]; [lia |].
  discriminate He.
Qed.

(** C10 (amended): constructing a die completes normally for all
    arguments and stores the given reroll threshold and minimum roll
    unchanged, negative values included; omitted ones default to 0 and
    1. *)
Theorem C10_constructor_stores_arguments (s : option Z) (r m : Z) :
  new_Die s (Some r) (Some m)
  = Normal {| sides := s; reroll := r; minRoll := m |} /\
  new_Die s None None = Normal {| sides := s; reroll := 0; minRoll := 1 |}.
Proof. split; reflexivity. Qed.

(** ** The worked example *)

Lemma damage_set_constructed :
  new_DiceSet (ArrayValue damage_specs) = Normal damage_set.
Proof. reflexivity. Qed.

Lemma crit_set_constructed :
  new_DiceSet (ArrayValue crit_specs) = Normal crit_set.
Proof. reflexivity. Qed.

Lemma damage_set_average : getAverageRolls damage_set = Normal (int 7).
Proof. evaluate. Qed.

Lemma crit_set_average : getAverageRolls crit_set = Normal (int 41).
Proof. evaluate. Qed.

(** The figures of the worked example are what the methods return when
    the attack holds the arrays of specification objects. *)
Lemma holy_attack_from_arrays :
  getAverageFromDice my_attack_arrays = Normal (dec 525 100) /\
  getAverageFromBonus my_attack_arrays = Normal (dec 1125 100) /\
  getAverageFromCritFactor my_attack_arrays = Normal (dec 3315 1000) /\
  getAverageTotal my_attack_arrays = Normal (dec 19815 1000).
Proof. repeat split; evaluate. Qed.

(** C1 (evaluation of the code at the scenario of the claim): with the
    dice handed over as [DiceSet] instances, as the claim and the test
    script do, the dice and the critical factor contribute [0] and the
    total is [11.25], not [19.815]. *)
Theorem C1_holy_attack_loses_its_dice :
  new_DiceSet (ArrayValue damage_specs) = Normal damage_set /\
  new_DiceSet (ArrayValue crit_specs) = Normal crit_set /\
  getAverageFromDice my_attack = Normal (int 0) /\
  getAverageFromBonus my_attack = Normal (dec 1125 100) /\
  getAverageFromCritFactor my_attack = Normal (int 0) /\
  getAverageTotal my_attack = Normal (dec 1125 100).
Proof. repeat split; evaluate. Qed.

(** ** Attack *)

Lemma p_crit_finite (crit_range adv_mod : Z) :
  0 <= adv_mod -> exists q : Qc, p_crit crit_range adv_mod = Fin q.
Proof.
  intros H. unfold p_crit, int.
  rewrite ndiv_finite by (apply zq_nonzero; lia).
  rewrite nsub_finite, npow_finite by exact H.
  eexists. reflexivity.
Qed.

(** The die the constructor builds from a specification object. *)
Lemma new_DiceSet_of_specs (specs : list DieSpec) :
  new_DiceSet (ArrayValue (map ElemSpec specs))
  = Normal {| dice := map (fun s => mkDie (Some (spec_sides s))
                                          (spec_reroll s) (spec_minRoll s))
                          specs |}.
Proof.
  unfold new_DiceSet.
  assert (H : forall l,
    for_each (fun e =>
                s <- get_property spec_sides e ;;
                r <- get_property spec_reroll e ;;
                m <- get_property spec_minRoll e ;;
                new_Die s r m) (map ElemSpec l)
    = Normal (map (fun s => mkDie (Some (spec_sides s))
                                  (spec_reroll s) (spec_minRoll s)) l)).
  { induction l as [| s l IH]; [reflexivity |].
    cbn [map for_each]. rewrite IH. reflexivity. }
  rewrite H. reflexivity.
Qed.

(** X21: Where the attack holds the array of specification objects itself,
    the dice figure is the hit probability times the sum of the dice
    averages. *)
Lemma getAverageFromDice_of_specs (a : Attack) (specs : list DieSpec) :
  damage_dice a = ArrayValue (map ElemSpec specs) ->
  getAverageFromDice a =
  rolls <- getAverageRolls
             {| dice := map (fun s => mkDie (Some (spec_sides s))
                                            (spec_reroll s) (spec_minRoll s))
                            specs |} ;;
  Normal (p_hit (target_AC a) (getEffectiveAttackBonus a)
                (advantage_modifier a) * rolls)%num.
Proof.
  intros H. unfold getAverageFromDice. rewrite H, new_DiceSet_of_specs.
  reflexivity.
Qed.

(** C2 (evaluation of the code where the claim fails): the damage
    [DiceSet] of the worked example averages 7 and the attack hits with
    probability 0.75, but [getAverageFromDice] returns 0 instead of their
    product 5.25.  The defect is the one of C1 and C3:
    [new DiceSet(this.damage_dice)] applied to a [DiceSet] instance. *)
Theorem C2_dice_of_a_DiceSet_are_dropped :
  damage_dice my_attack = DiceSetValue damage_set /\
  getAverageRolls damage_set = Normal (int 7) /\
  p_hit (target_AC my_attack) (getEffectiveAttackBonus my_attack)
        (advantage_modifier my_attack) = dec 75 100 /\
  getAverageFromDice my_attack = Normal (int 0).
Proof. repeat split; evaluate. Qed.

(** C3: when both dice fields of an attack hold [DiceSet] instances, the
    constructor calls inside the methods build empty dice lists, so
    [getAverageFromDice] returns [p_hit] times 0 and
    [getAverageFromCritFactor] returns [p_crit] times 0; with a
    non-negative advantage modifier [getAverageTotal] then returns what
    [getAverageFromBonus] returns. *)
Theorem C3_DiceSet_instances_contribute_nothing
    (a : Attack) (ds cs : DiceSet) :
  damage_dice a = DiceSetValue ds ->
  crit_dice a = DiceSetValue cs ->
  new_DiceSet (damage_dice a) = Normal {| dice := [] |} /\
  new_DiceSet (crit_dice a) = Normal {| dice := [] |} /\
  getAverageFromDice a
  = Normal (p_hit (target_AC a) (getEffectiveAttackBonus a)
                  (advantage_modifier a) * int 0)%num /\
  getAverageFromCritFactor a
  = Normal (p_crit (crit_range a) (advantage_modifier a) * int 0)%num /\
  (0 <= advantage_modifier a -> getAverageTotal a = getAverageFromBonus a).
Proof.
  intros Hd Hc.
  assert (Hdice : getAverageFromDice a
            = Normal (p_hit (target_AC a) (getEffectiveAttackBonus a)
                            (advantage_modifier a) * int 0)%num).
  { unfold getAverageFromDice. rewrite Hd. reflexivity. }
  assert (Hcrit : getAverageFromCritFactor a
            = Normal (p_crit (crit_range a) (advantage_modifier a)
                      * (int 0 - int 0))%num).
  { unfold getAverageFromCritFactor. rewrite Hd, Hc. reflexivity. }
  assert (Hzero : (int 0 - int 0)%num = int 0) by evaluate.
  split; [rewrite Hd; reflexivity |].
  split; [rewrite Hc; reflexivity |].
  split; [exact Hdice |].
  split; [rewrite Hcrit, Hzero; reflexivity |].
  intros HM. unfold getAverageTotal. rewrite Hdice, Hcrit, Hzero.
  unfold getAverageFromBonus. cbn [bind].
  destruct (p_hit_finite (target_AC a) (getEffectiveAttackBonus a)
                         (advantage_modifier a)) as [p ->].
  destruct (p_crit_finite (crit_range a) _ HM) as [q ->].
  unfold int. cbn [nmul nadd]. do 2 apply f_equal.
  rewrite zq_0. ring.
Qed.

Lemma C3_DiceSet_instances_contribute_nothing_witness :
  new_DiceSet (damage_dice my_attack) = Normal {| dice := [] |} /\
  new_DiceSet (crit_dice my_attack) = Normal {| dice := [] |} /\
  getAverageFromDice my_attack
  = Normal (p_hit (target_AC my_attack) (getEffectiveAttackBonus my_attack)
                  (advantage_modifier my_attack) * int 0)%num /\
  getAverageFromCritFactor my_attack
  = Normal (p_crit (crit_range my_attack) (advantage_modifier my_attack)
            * int 0)%num /\
  getAverageTotal my_attack = getAverageFromBonus my_attack.
Proof.
  destruct (C3_DiceSet_instances_contribute_nothing
              my_attack damage_set crit_set eq_refl eq_refl)
    as [H1 [H2 [H3 [H4 H5]]]].
  repeat (split; [assumption |]).
  apply H5. cbn. lia.
Defined.

(** ** calculateDefaultCritDice *)

Lemma for_each_normal {A B : Type} (body : A -> completion B) (f : A -> B)
    (l : list A) :
  (forall x, In x l -> body x = Normal (f x)) ->
  for_each body l = Normal (map f l).
Proof.
  induction l as [| x l IH]; intros H; [reflexivity |].
  cbn [for_each map]. rewrite (H x) by (left; reflexivity).
  rewrite IH by (intros y Hy; apply H; right; exact Hy).
  reflexivity.
Qed.

Lemma map_constant_repeat {A B : Type} (b : B) (l : list A) :
  map (fun _ => b) l = repeat b (length l).
Proof. induction l as [| x l IH]; cbn; [| rewrite IH]; reflexivity. Qed.

(** Every pass of the loop of [calculateDefaultCritDice] finds its die:
    the index [i % n] is in range. *)
Lemma getDie_in_range (ds : DiceSet) (i : nat) :
  dice ds <> [] ->
  exists die,
    getDie ds (js_rem (Z.of_nat i) (DiceSet_length ds)) = Some die /\
    In die (dice ds).
Proof.
  intros Hne. unfold js_rem, DiceSet_length, getDie.
  assert (Hlen : (0 < length (dice ds))%nat).
  { destruct (dice ds); [contradiction | cbn; lia]. }
  destruct (Z.eqb_spec (Z.of_nat (length (dice ds))) 0) as [E | _]; [lia |].
  assert (Hrem : 0 <= Z.rem (Z.of_nat i) (Z.of_nat (length (dice ds)))
                 < Z.of_nat (length (dice ds))).
  { rewrite Z.rem_mod_nonneg by lia. apply Z.mod_pos_bound. lia. }
  destruct (Z.ltb_spec (Z.rem (Z.of_nat i) (Z.of_nat (length (dice ds)))) 0);
    [lia |].
  destruct (nth_error (dice ds)
              (Z.to_nat (Z.rem (Z.of_nat i) (Z.of_nat (length (dice ds))))))
    as [die |] eqn:E.
  - exists die. split; [reflexivity |]. eapply nth_error_In. exact E.
  - apply nth_error_None in E. lia.
Qed.

(** X26: What the helper returns for any dice set whose dice have a side
    count: twice as many dice, each with reroll threshold 0, minimum roll
    1 and no side count. *)
Lemma calculateDefaultCritDice_shape (ds : DiceSet) :
  (forall die, In die (dice ds) -> sides die <> None) ->
  calculateDefaultCritDice ds
  = Normal {| dice := repeat (mkDie None 0 1) (2 * length (dice ds)) |}.
Proof.
  intros Hsides. destruct ds as [l]. cbn [dice] in Hsides |- *.
  destruct l as [| d0 l0]; [reflexivity |].
  set (ds := {| dice := d0 :: l0 |}).
  assert (Hne : dice ds <> []) by discriminate.
  unfold calculateDefaultCritDice.
  set (side_at := fun i : nat =>
         match getDie ds (js_rem (Z.of_nat i) (DiceSet_length ds)) with
         | Some die => getSides die
         | None => None
         end).
  rewrite (for_each_normal _ side_at).
  2:{ intros i _. unfold side_at.
      destruct (getDie_in_range ds i Hne) as [die [-> _]]. reflexivity. }
  cbn [bind]. unfold new_DiceSet. rewrite map_map.
  rewrite (for_each_normal _ (fun _ => mkDie None 0 1)).
  2:{ intros e He. apply in_map_iff in He. destruct He as [i [<- _]].
      unfold side_at.
      destruct (getDie_in_range ds i Hne) as [die [-> Hin]].
      unfold getSides.
      destruct (sides die) eqn:E; [reflexivity |].
      exfalso. exact (Hsides die Hin E). }
  cbn [bind]. rewrite map_constant_repeat, length_map, length_seq.
  unfold DiceSet_length.
  replace (Z.to_nat (Z.of_nat (length (dice ds)) * 2))
    with (2 * length (dice ds))%nat by lia.
  reflexivity.
Qed.

(** Applied to its own result, the helper throws: the side counts it
    collects are [undefined], and the constructor reads a property of
    [undefined]. *)
Lemma calculateDefaultCritDice_twice :
  (ds <- calculateDefaultCritDice {| dice := [d6; d8] |} ;;
   calculateDefaultCritDice ds) = Throw TypeError.
Proof. reflexivity. Qed.

(** C8 (evaluation of the code where the claim fails): for the dice set
    {d6, d8} the helper returns four dice with reroll threshold 0 and
    minimum roll 1 whose side count is [undefined], because the
    constructor reads [.sides] of the plain numbers it is handed. *)
Theorem C8_default_crit_dice_have_no_sides :
  calculateDefaultCritDice {| dice := [d6; d8] |}
  = Normal {| dice := [mkDie None 0 1; mkDie None 0 1;
                       mkDie None 0 1; mkDie None 0 1] |}.
Proof. reflexivity. Qed.

(** * Further properties of the code *)

(** ** More arithmetic *)

Lemma zq_plus (a b : Z) : zq (a + b) = (zq a + zq b)%Qc.
Proof.
  apply Qc_is_canon. unfold Qcplus, zq, Q2Qc, this.
  rewrite !Qred_correct, inject_Z_plus. reflexivity.
Qed.


Lemma zq_opposite (a : Z) : zq (- a) = (- zq a)%Qc.
Proof.
  apply Qc_is_canon. unfold Qcopp, zq, Q2Qc, this.
  rewrite !Qred_correct, inject_Z_opp. reflexivity.
Qed.

Lemma zq_minus (a b : Z) : zq (a - b) = (zq a - zq b)%Qc.
Proof. unfold Z.sub, Qcminus. rewrite zq_plus, zq_opposite. reflexivity. Qed.


Lemma Qcpower_nonnegative (x : Qc) (n : nat) : (0 <= x)%Qc -> (0 <= x ^ n)%Qc.
Proof.
  intros H0. induction n as [| n IH]; cbn [Qcpower].
  - on_fractions. lra.
  - revert IH. generalize (x ^ n)%Qc. intros y IH.
    destruct x as [x cx], y as [y cy]. on_fractions. cbn in *. nra.
Qed.

Lemma Qcpower_monotone (x y : Qc) (n : nat) :
  (0 <= x)%Qc -> (x <= y)%Qc -> (x ^ n <= y ^ n)%Qc.
Proof.
  intros H0 Hxy. induction n as [| n IH]; cbn [Qcpower].
  - on_fractions. lra.
  - pose proof (Qcpower_nonnegative x n H0) as Hx.
    revert IH Hx. generalize (x ^ n)%Qc (y ^ n)%Qc. intros u v IH Hx.
    destruct x as [x cx], y as [y cy], u as [u cu], v as [v cv].
    on_fractions. cbn in *. nra.
Qed.

Lemma Qcpower_more_factors (b : Qc) (n m : nat) :
  (0 <= b)%Qc -> (b <= 1)%Qc -> (n <= m)%nat -> (b ^ m <= b ^ n)%Qc.
Proof.
  intros H0 H1 Hnm. induction Hnm as [| m Hnm IH].
  - apply Qcle_refl.
  - apply Qcle_trans with (b ^ m)%Qc; [| exact IH].
    cbn [Qcpower]. pose proof (Qcpower_nonnegative b m H0) as Hp.
    revert Hp. generalize (b ^ m)%Qc. intros u Hp.
    destruct b as [b cb], u as [u cu]. on_fractions. cbn in *. nra.
Qed.

Lemma complement_antitone (x y : Qc) : (x <= y)%Qc -> (1 - y <= 1 - x)%Qc.
Proof.
  intros H. destruct x as [x cx], y as [y cy]. on_fractions. cbn in *. lra.
Qed.

(** ** p_hit and p_crit as functions of the advantage modifier *)

Lemma miss_chance_bounds (A B : Z) :
  (0 <= 1 - single_roll A B)%Qc /\ (1 - single_roll A B <= 1)%Qc.
Proof.
  destruct (single_roll_bounds A B) as [Hlo Hhi]. revert Hlo Hhi.
  generalize (single_roll A B). intros [x cx] Hlo Hhi.
  on_fractions. cbn in *. split; lra.
Qed.

(** X3: More d20 rolls never lower the chance to hit: [p_hit] is
    non-decreasing in the advantage modifier, from 0 rolls on. *)
Theorem p_hit_advantage_never_hurts (A B M1 M2 : Z) :
  0 <= M1 -> M1 <= M2 ->
  exists p1 p2 : Qc,
    p_hit A B M1 = Fin p1 /\ p_hit A B M2 = Fin p2 /\ (p1 <= p2)%Qc.
Proof.
  intros H1 H12. eexists. eexists.
  split; [apply p_hit_rolls; lia |]. split; [apply p_hit_rolls; lia |].
  destruct (miss_chance_bounds A B) as [Hb0 Hb1].
  apply complement_antitone. apply Qcpower_more_factors; [assumption .. | lia].
Qed.

Lemma p_hit_advantage_never_hurts_witness :
  exists p1 p2 : Qc,
    p_hit 15 4 1 = Fin p1 /\ p_hit 15 4 2 = Fin p2 /\ (p1 <= p2)%Qc.
Proof. apply (p_hit_advantage_never_hurts 15 4 1 2); lia. Defined.



(** ** p_crit *)

(** The chance that one d20 roll is below the critical range. *)
Lemma no_crit_chance (crit_range : Z) :
  (1 - zq (21 - crit_range) / zq 20)%Qc = (zq (crit_range - 1) / zq 20)%Qc.
Proof.
  replace (21 - crit_range) with (20 - (crit_range - 1)) by lia.
  rewrite zq_minus. field. apply zq_nonzero. lia.
Qed.

Lemma p_crit_rolls (crit_range adv_mod : Z) :
  0 <= adv_mod ->
  p_crit crit_range adv_mod
  = Fin (1 - (zq (crit_range - 1) / zq 20) ^ Z.to_nat adv_mod)%Qc.
Proof.
  intros H. unfold p_crit, int.
  rewrite ndiv_finite by (apply zq_nonzero; lia).
  rewrite nsub_finite, npow_finite by exact H.
  rewrite nsub_finite, zq_1, no_crit_chance. reflexivity.
Qed.

Lemma no_crit_chance_bounds (crit_range : Z) :
  1 <= crit_range <= 21 ->
  (0 <= zq (crit_range - 1) / zq 20)%Qc /\
  (zq (crit_range - 1) / zq 20 <= 1)%Qc.
Proof.
  intros H.
  assert (H0 : (inject_Z 0 <= inject_Z (crit_range - 1))%Q)
    by (rewrite <- Zle_Qle; lia).
  assert (H1 : (inject_Z (crit_range - 1) <= inject_Z 20)%Q)
    by (rewrite <- Zle_Qle; lia).
  unfold Qcdiv, Qcinv, zq. on_fractions.
  revert H0 H1. generalize (inject_Z (crit_range - 1)). intros q H0 H1.
  change (/ inject_Z 20)%Q with (1 # 20)%Q.
  change (inject_Z 0) with 0%Q in H0.
  change (inject_Z 20) with (20 # 1)%Q in H1.
  split; lra.
Qed.

(** X6: For a critical range from 1 to 21 and [M >= 0] rolls, [p_crit]
    returns [1 - ((crit_range - 1)/20)^M], a probability. *)
Theorem p_crit_is_a_probability (crit_range adv_mod : Z) :
  1 <= crit_range <= 21 -> 0 <= adv_mod ->
  exists p : Qc,
    p_crit crit_range adv_mod = Fin p /\
    p = (1 - (zq (crit_range - 1) / zq 20) ^ Z.to_nat adv_mod)%Qc /\
    (0 <= p)%Qc /\ (p <= 1)%Qc.
Proof.
  intros Hc HM. eexists. split; [apply p_crit_rolls; exact HM |].
  split; [reflexivity |].
  destruct (no_crit_chance_bounds crit_range Hc) as [H0 H1].
  destruct (Qcpower_unit_interval _ (Z.to_nat adv_mod) H0 H1) as [Hp0 Hp1].
  apply complement_unit_interval; assumption.
Qed.

Lemma p_crit_is_a_probability_witness :
  exists p : Qc,
    p_crit 19 2 = Fin p /\
    p = (1 - (zq (19 - 1) / zq 20) ^ Z.to_nat 2)%Qc /\
    (0 <= p)%Qc /\ (p <= 1)%Qc.
Proof. apply (p_crit_is_a_probability 19 2); lia. Defined.

(** Outside that range the result is no probability: a critical range of
    0 gives [21/20] for one roll, and of 22 gives [-1/20]. *)
Lemma p_crit_out_of_range :
  p_crit 0 1 = dec 21 20 /\ p_crit 22 1 = dec (-1) 20.
Proof. split; evaluate. Qed.

(** X7: A wider critical range never lowers the chance of a critical hit:
    [p_crit] is non-increasing in [crit_range] between 1 and 21. *)
Theorem p_crit_wider_range_never_hurts (c1 c2 adv_mod : Z) :
  1 <= c1 -> c1 <= c2 -> c2 <= 21 -> 0 <= adv_mod ->
  exists p1 p2 : Qc,
    p_crit c1 adv_mod = Fin p1 /\ p_crit c2 adv_mod = Fin p2 /\
    (p2 <= p1)%Qc.
Proof.
  intros H1 H12 H2 HM. eexists. eexists.
  split; [apply p_crit_rolls; exact HM |].
  split; [apply p_crit_rolls; exact HM |].
  apply complement_antitone. apply Qcpower_monotone.
  - apply no_crit_chance_bounds. lia.
  - apply twentieth_monotone. lia.
Qed.

Lemma p_crit_wider_range_never_hurts_witness :
  exists p1 p2 : Qc,
    p_crit 19 2 = Fin p1 /\ p_crit 20 2 = Fin p2 /\ (p2 <= p1)%Qc.
Proof. apply (p_crit_wider_range_never_hurts 19 20 2); lia. Defined.

(** X8: More d20 rolls never lower the chance of a critical hit. *)
Theorem p_crit_advantage_never_hurts (crit_range M1 M2 : Z) :
  1 <= crit_range <= 21 -> 0 <= M1 -> M1 <= M2 ->
  exists p1 p2 : Qc,
    p_crit crit_range M1 = Fin p1 /\ p_crit crit_range M2 = Fin p2 /\
    (p1 <= p2)%Qc.
Proof.
  intros Hc H1 H12. eexists. eexists.
  split; [apply p_crit_rolls; lia |]. split; [apply p_crit_rolls; lia |].
  destruct (no_crit_chance_bounds crit_range Hc) as [Hb0 Hb1].
  apply complement_antitone. apply Qcpower_more_factors; [assumption .. | lia].
Qed.

Lemma p_crit_advantage_never_hurts_witness :
  exists p1 p2 : Qc,
    p_crit 19 1 = Fin p1 /\ p_crit 19 3 = Fin p2 /\ (p1 <= p2)%Qc.
Proof. apply (p_crit_advantage_never_hurts 19 1 3); lia. Defined.

(** X9: With a critical range of 1 and a negative advantage modifier the
    power is [0 ** M], and [p_crit] returns [-Infinity]. *)
Theorem p_crit_negative_modifier_diverges (adv_mod : Z) :
  adv_mod < 0 -> p_crit 1 adv_mod = NInf.
Proof.
  intros H. unfold p_crit, int.
  rewrite ndiv_finite by (apply zq_nonzero; lia).
  rewrite nsub_finite. unfold npow.
  destruct (Z.eqb_spec adv_mod 0); [lia |].
  destruct (Z.ltb_spec 0 adv_mod); [lia |].
  destruct (Qc_eq_dec _ 0) as [_ | Hne]; [reflexivity |].
  exfalso. apply Hne. apply Qc_is_canon. reflexivity.
Qed.

Lemma p_crit_negative_modifier_diverges_witness : p_crit 1 (-1) = NInf.
Proof. apply (p_crit_negative_modifier_diverges (-1)). lia. Defined.

(** ** T *)







(** ** Die.getAverageRoll, all three branches *)











(** ** The closed forms against the enumeration of the faces *)














(** ** DiceSet *)

(** X15: The [id] of a specification object does not reach the dice: arrays
    of specification objects that agree on sides, reroll and minRoll,
    entry by entry, build the same [DiceSet]. *)
Theorem new_DiceSet_ignores_ids (specs1 specs2 : list DieSpec) :
  map die_of_spec specs1 = map die_of_spec specs2 ->
  new_DiceSet (ArrayValue (map ElemSpec specs1))
  = new_DiceSet (ArrayValue (map ElemSpec specs2)).
Proof.
  intros H. rewrite !new_DiceSet_of_specs.
  change (fun s => mkDie (Some (spec_sides s)) (spec_reroll s) (spec_minRoll s))
    with die_of_spec.
  rewrite H. reflexivity.
Qed.

Lemma new_DiceSet_ignores_ids_witness :
  new_DiceSet (ArrayValue (map ElemSpec [mkDieSpec 6 0 1 1654967414633]))
  = new_DiceSet (ArrayValue (map ElemSpec [mkDieSpec 6 0 1 7])).
Proof. apply new_DiceSet_ignores_ids. reflexivity. Defined.

Lemma new_DiceSet_undefined_element (elems : list element) :
  In ElemUndefined elems -> new_DiceSet (ArrayValue elems) = Throw TypeError.
Proof.
  unfold new_DiceSet. induction elems as [| e elems IH]; intros Hin.
  - destruct Hin.
  - destruct Hin as [-> | Hin]; [reflexivity |].
    specialize (IH Hin). cbn [for_each].
    destruct e as [s | n |]; [| | reflexivity];
      cbn [get_property bind new_Die];
      (destruct (for_each _ elems) as [ds | err]; cbn [bind] in *;
       [discriminate IH | exact IH]).
Qed.

(** X16: Applied to an array, the constructor throws a [TypeError] exactly
    when an element is [undefined]; otherwise it returns a set with one
    die per element, in order, with reroll 0 and minRoll 1 and no side
    count wherever the element is a plain number. *)
Theorem new_DiceSet_of_array (elems : list element) :
  (In ElemUndefined elems ->
   new_DiceSet (ArrayValue elems) = Throw TypeError) /\
  (~ In ElemUndefined elems ->
   new_DiceSet (ArrayValue elems)
   = Normal {| dice := map (fun e => match e with
                                     | ElemSpec s => die_of_spec s
                                     | _ => mkDie None 0 1
                                     end) elems |}).
Proof.
  split; [apply new_DiceSet_undefined_element |].
  unfold new_DiceSet. induction elems as [| e elems IH]; [reflexivity |].
  intros Hnot.
  assert (Hrest : ~ In ElemUndefined elems)
    by (intros Hin; apply Hnot; right; exact Hin).
  specialize (IH Hrest). cbn [for_each map].
  destruct e as [s | n |];
    [| | exfalso; apply Hnot; left; reflexivity];
    cbn [get_property bind new_Die];
    (destruct (for_each _ elems) as [ds | err]; cbn [bind] in *;
     [| discriminate IH]);
    injection IH as ->; reflexivity.
Qed.

Lemma new_DiceSet_of_array_witness :
  new_DiceSet (ArrayValue [ElemNumber 6; ElemUndefined]) = Throw TypeError /\
  new_DiceSet (ArrayValue [plain 6 1; ElemNumber 8])
  = Normal {| dice := [mkDie (Some 6) 0 1; mkDie None 0 1] |}.
Proof.
  split.
  - apply (new_DiceSet_of_array [ElemNumber 6; ElemUndefined]).
    right. left. reflexivity.
  - apply (new_DiceSet_of_array [plain 6 1; ElemNumber 8]).
    intros [H | [H | []]]; discriminate H.
Defined.

(** X17: [addDie] then [getDie] and [length]: the set is one die longer, the
    new die is at the old length, and the dice before it are where
    they were. *)
Theorem addDie_appends (ds : DiceSet) (die : Die) :
  DiceSet_length (addDie ds die) = DiceSet_length ds + 1 /\
  getDie (addDie ds die) (Some (DiceSet_length ds)) = Some die /\
  forall i : Z,
    i < DiceSet_length ds ->
    getDie (addDie ds die) (Some i) = getDie ds (Some i).
Proof.
  unfold DiceSet_length, addDie, getDie. cbn [dice].
  split; [rewrite length_app; cbn; lia |]. split.
  - destruct (Z.ltb_spec (Z.of_nat (length (dice ds))) 0); [lia |].
    rewrite Nat2Z.id, nth_error_app2 by lia.
    rewrite Nat.sub_diag. reflexivity.
  - intros i Hi. destruct (Z.ltb_spec i 0); [reflexivity |].
    apply nth_error_app1. lia.
Qed.

Lemma addDie_appends_witness :
  getDie (addDie damage_set d8) (Some 1) = getDie damage_set (Some 1).
Proof.
  destruct (addDie_appends damage_set d8) as [_ [_ H]].
  apply H. cbn. lia.
Defined.

(** X18: [getDie] returns [undefined] exactly for a [NaN] index and for an
    integer index below 0 or from the length on. *)
Theorem getDie_undefined_iff_out_of_range (ds : DiceSet) (N : option Z) :
  getDie ds N = None <->
  match N with
  | Some i => i < 0 \/ DiceSet_length ds <= i
  | None => True
  end.
Proof.
  unfold getDie, DiceSet_length. destruct N as [i |]; [| tauto].
  destruct (Z.ltb_spec i 0).
  - split; [intros _; left; assumption | reflexivity].
  - rewrite nth_error_None. lia.
Qed.

(** ** DiceSet.getAverageRolls *)

Lemma add_rolls_app (total : number) (l1 l2 : list Die) :
  add_rolls total (l1 ++ l2) = (t <- add_rolls total l1 ;; add_rolls t l2).
Proof.
  revert total. induction l1 as [| d l1 IH]; intros total; [reflexivity |].
  cbn [app add_rolls]. destruct (getAverageRoll d) as [a | e];
    [| reflexivity].
  cbn [bind]. apply IH.
Qed.

(** X19: [addDie] then [getAverageRolls]: the total of the longer set is the
    total of the set plus the average of the new die. *)
Theorem getAverageRolls_after_addDie (ds : DiceSet) (die : Die) :
  getAverageRolls (addDie ds die)
  = (t <- getAverageRolls ds ;;
     a <- getAverageRoll die ;;
     Normal (t + a)%num).
Proof.
  unfold getAverageRolls, addDie. cbn [dice]. rewrite add_rolls_app.
  reflexivity.
Qed.







(** ** Attack, end to end *)

Lemma getAverageFromDice_of_specs_witness :
  getAverageFromDice my_attack_arrays =
  rolls <- getAverageRolls
             {| dice := map (fun s => mkDie (Some (spec_sides s))
                                            (spec_reroll s) (spec_minRoll s))
                            [mkDieSpec 6 0 1 1; mkDieSpec 6 0 1 2] |} ;;
  Normal (p_hit (target_AC my_attack_arrays)
                (getEffectiveAttackBonus my_attack_arrays)
                (advantage_modifier my_attack_arrays) * rolls)%num.
Proof.
  apply (getAverageFromDice_of_specs my_attack_arrays
           [mkDieSpec 6 0 1 1; mkDieSpec 6 0 1 2]).
  reflexivity.
Defined.












(** ** calculateDefaultCritDice, all cases *)

Lemma calculateDefaultCritDice_shape_witness :
  calculateDefaultCritDice damage_set
  = Normal {| dice := repeat (mkDie None 0 1) (2 * length (dice damage_set)) |}.
Proof.
  apply (calculateDefaultCritDice_shape damage_set).
  intros die [<- | [<- | []]]; discriminate.
Defined.

(** X27: A die without side count makes the helper throw: the side counts it
    collects then include [undefined], and the constructor reads a
    property of it. *)
Theorem calculateDefaultCritDice_throws_on_sideless_die
    (ds : DiceSet) (die : Die) :
  In die (dice ds) -> sides die = None ->
  calculateDefaultCritDice ds = Throw TypeError.
Proof.
  intros Hin Hnone.
  assert (Hne : dice ds <> []) by (destruct (dice ds); [destruct Hin | discriminate]).
  unfold calculateDefaultCritDice.
  set (side_at := fun i : nat =>
         match getDie ds (js_rem (Z.of_nat i) (DiceSet_length ds)) with
         | Some die => getSides die
         | None => None
         end).
  rewrite (for_each_normal _ side_at).
  2:{ intros i _. unfold side_at.
      destruct (getDie_in_range ds i Hne) as [d0 [-> _]]. reflexivity. }
  cbn [bind]. apply new_DiceSet_undefined_element.
  apply In_nth_error in Hin. destruct Hin as [k Hk].
  assert (Hlt : (k < length (dice ds))%nat)
    by (apply nth_error_Some; congruence).
  apply in_map_iff. exists None. split; [reflexivity |].
  apply in_map_iff. exists k. split.
  - unfold side_at, js_rem, DiceSet_length, getDie.
    destruct (Z.eqb_spec (Z.of_nat (length (dice ds))) 0); [lia |].
    rewrite Z.rem_small by lia.
    destruct (Z.ltb_spec (Z.of_nat k) 0); [lia |].
    rewrite Nat2Z.id, Hk. exact Hnone.
  - apply in_seq. unfold DiceSet_length. lia.
Qed.

Lemma calculateDefaultCritDice_throws_on_sideless_die_witness :
  calculateDefaultCritDice {| dice := [d6; mkDie None 0 1] |}
  = Throw TypeError.
Proof.
  apply (calculateDefaultCritDice_throws_on_sideless_die
           {| dice := [d6; mkDie None 0 1] |} (mkDie None 0 1)).
  - right. left. reflexivity.
  - reflexivity.
Defined.

